(** * UTF-8 boundary scanning and the simdutf wrapper

    A shallow embedding of [simdutf_wrapper.cpp]: the four thin wrappers
    around simdutf and the hand-written backward scanner
    [buf_simdutf_utf8_find_boundary], followed by the properties the
    specification states about them.

    Bytes are [Byte.byte]; the cast [(unsigned char)buffer[i]] is [u8].
    [size_t] is a 64-bit unsigned integer, modelled in [Z] with the
    wrap-around of its subtractions written out. *)

From Stdlib Require Import ZArith List Bool Lia.
From Stdlib.Strings Require Import Byte.
Import ListNotations.
Local Open Scope Z_scope.

(* ================================================================== *)
(** ** Machine-level data *)

(** [size_t]: the unsigned 64-bit type of lengths and indices. *)
Definition SIZE_MODULUS : Z := 2 ^ 64.

Definition size_sub (a b : Z) : Z := (a - b) mod SIZE_MODULUS.

(** A length the caller can pass at all: it has to fit in [size_t]. *)
Definition fits_size_t (n : Z) : Prop := 0 <= n < SIZE_MODULUS.

(** [(unsigned char) c]: the value of a byte, in [0, 256). *)
Definition u8 (c : byte) : Z := Z.of_N (Byte.to_N c).

(** [(unsigned char) buffer[i]].  A read past the end of the list stands
    for a read outside the caller's buffer, which C leaves undefined; the
    theorems below only ever read below [length]. *)
Definition load (buffer : list byte) (i : Z) : Z :=
  u8 (nth (Z.to_nat i) buffer x00).

(** The caller's view [buf[0..len)] of a pointer and a length. *)
Definition view (buf : list byte) (len : Z) : list byte :=
  firstn (Z.to_nat len) buf.

(* ================================================================== *)
(** ** The boundary scanner (lines 34-80 of the source) *)

(** The [if]/[else if] chain that sets [int seq_len] from a byte that is
    not a continuation byte; [None] is the final [else], the invalid lead
    byte. *)
Definition lead_seq_len (b : Z) : option Z :=
  if b <? 0x80 then Some 1
  else if Z.land b 0xE0 =? 0xC0 then Some 2
  else if Z.land b 0xF0 =? 0xE0 then Some 3
  else if Z.land b 0xF8 =? 0xF0 then Some 4
  else None.

(** What the loop body returns once it stands on a byte [b] at index [i]
    with [(b & 0xC0) != 0x80]. *)
Definition lead_verdict (length i b : Z) : Z :=
  match lead_seq_len b with
  | None => i
  | Some seq_len =>
      let available := size_sub length i in
      if seq_len <=? available then length else i
  end.

(** [for (size_t i = length; i > check_start; ) { i--; ... }].
    The loop is run on fuel; [None] is fuel running out before the loop is
    left, which [find_boundary_returns] shows never happens with the fuel
    the scanner passes.  Leaving the loop falls through to
    [return check_start]. *)
Fixpoint scan_back (fuel : nat) (buffer : list byte)
         (length check_start i : Z) : option Z :=
  if i >? check_start then
    match fuel with
    | O => None
    | S fuel' =>
        let i := size_sub i 1 in
        let b := load buffer i in
        if negb (Z.land b 0xC0 =? 0x80)
        then Some (lead_verdict length i b)
        else scan_back fuel' buffer length check_start i
    end
  else Some check_start.

Definition buf_simdutf_utf8_find_boundary
           (buffer : list byte) (length : Z) : option Z :=
  if length =? 0 then Some 0
  else if load buffer (size_sub length 1) <? 0x80 then Some length
  else
    let check_start := if length >? 4 then size_sub length 4 else 0 in
    scan_back (Z.to_nat length) buffer length check_start length.

(** [find_utf8_boundary(bytes, length)] on a chunk that is exactly the
    byte sequence [s]. *)
Definition find_utf8_boundary (s : list byte) : option Z :=
  buf_simdutf_utf8_find_boundary s (Z.of_nat (List.length s)).

(* ================================================================== *)
(** ** simdutf

    The wrapper includes [simdutf.h] and forwards to three of its
    functions; the library itself is not part of the wrapper's source, so
    its three operations are modelled from the contracts the
    specification gives for the Validator, the Size Estimator and the
    Transcoder. *)

Module simdutf.

(** Modelled from the spec: simdutf is absent; glossary, "Continuation
    byte: a UTF-8 byte matching bit pattern 10xxxxxx". *)
Definition is_continuation (x : Z) : bool := Z.land x 0xC0 =? 0x80.

(** Modelled from the spec: simdutf is absent; a legal Unicode scalar
    value is at most U+10FFFF and is not a surrogate code point. *)
Definition is_scalar (cp : Z) : bool :=
  (cp <=? 0x10FFFF) && negb ((0xD800 <=? cp) && (cp <=? 0xDFFF)).

(** The six payload bits of a continuation byte, appended to [acc]. *)
Definition push6 (acc x : Z) : Z := Z.lor (Z.shiftl acc 6) (Z.land x 0x3F).

(** Modelled from the spec: simdutf is absent; one step of strict UTF-8
    decoding (section 4.1): the code point at the head of [s] and the
    number of bytes it takes, or [None] for a stray continuation byte, an
    invalid lead byte, a sequence cut off by the end of the buffer, an
    overlong form, a surrogate or a value above U+10FFFF. *)
Definition decode_one (s : list byte) : option (Z * nat) :=
  match s with
  | [] => None
  | c0 :: t =>
      let x0 := u8 c0 in
      if x0 <? 0x80 then Some (x0, 1%nat)
      else if Z.land x0 0xE0 =? 0xC0 then
        match t with
        | c1 :: _ =>
            let cp := push6 (Z.land x0 0x1F) (u8 c1) in
            if is_continuation (u8 c1) && (0x80 <=? cp)
            then Some (cp, 2%nat) else None
        | _ => None
        end
      else if Z.land x0 0xF0 =? 0xE0 then
        match t with
        | c1 :: c2 :: _ =>
            let cp := push6 (push6 (Z.land x0 0x0F) (u8 c1)) (u8 c2) in
            if is_continuation (u8 c1) && is_continuation (u8 c2)
               && (0x800 <=? cp) && is_scalar cp
            then Some (cp, 3%nat) else None
        | _ => None
        end
      else if Z.land x0 0xF8 =? 0xF0 then
        match t with
        | c1 :: c2 :: c3 :: _ =>
            let cp :=
              push6 (push6 (push6 (Z.land x0 0x07) (u8 c1)) (u8 c2)) (u8 c3) in
            if is_continuation (u8 c1) && is_continuation (u8 c2)
               && is_continuation (u8 c3)
               && (0x10000 <=? cp) && is_scalar cp
            then Some (cp, 4%nat) else None
        | _ => None
        end
      else None
  end.

(** Decoding a whole buffer, one code point after the other.  Every step
    takes at least one byte, so [length s] steps of fuel are enough
    ([decode_from_fuel]). *)
Fixpoint decode_from (fuel : nat) (s : list byte) : option (list Z) :=
  match s with
  | [] => Some []
  | _ :: _ =>
      match fuel with
      | O => None
      | S fuel' =>
          match decode_one s with
          | None => None
          | Some (cp, n) =>
              match decode_from fuel' (skipn n s) with
              | None => None
              | Some cps => Some (cp :: cps)
              end
          end
      end
  end.

Definition decode_utf8 (s : list byte) : option (list Z) :=
  decode_from (List.length s) s.

(** Modelled from the spec: simdutf is absent; Validator, "true iff every
    byte sequence decodes to a legal Unicode scalar value under strict
    UTF-8 rules"; the empty buffer is valid. *)
Definition validate_utf8 (s : list byte) : bool :=
  match decode_utf8 s with Some _ => true | None => false end.

(** "code points above the Basic Multilingual Plane count as 2 units via
    surrogate pairs; all others count as 1". *)
Definition utf16_units (cp : Z) : Z := if cp <? 0x10000 then 1 else 2.

(** Modelled from the spec: simdutf is absent; Size Estimator, the exact
    number of UTF-16 code units the decoded text requires.  On input that
    is not valid UTF-8 the spec leaves the result open; 0 stands for it. *)
Definition utf16_length_from_utf8 (s : list byte) : Z :=
  match decode_utf8 s with
  | Some cps => fold_right (fun cp acc => utf16_units cp + acc) 0 cps
  | None => 0
  end.

(** One code point as one or two 16-bit code units. *)
Definition encode_utf16 (cp : Z) : list Z :=
  if cp <? 0x10000 then [cp]
  else
    let v := cp - 0x10000 in
    [0xD800 + Z.shiftr v 10; 0xDC00 + Z.land v 0x3FF].

(** Modelled from the spec: simdutf is absent; Transcoder, "decodes each
    UTF-8 code point and re-encodes it as one or two little-endian 16-bit
    code units ..., writing sequentially into output starting at index
    0", and returns the number of code units written.  The result is that
    count and the output buffer afterwards.  On input that is not valid
    UTF-8 the spec leaves the result open; nothing written stands for
    it. *)
Definition convert_utf8_to_utf16le
           (input : list byte) (output : list Z) : Z * list Z :=
  match decode_utf8 input with
  | Some cps =>
      let units := flat_map encode_utf16 cps in
      (Z.of_nat (List.length units),
       units ++ skipn (List.length units) output)
  | None => (0, output)
  end.

End simdutf.

(* ================================================================== *)
(** ** The pass-through wrappers (lines 10-32 of the source) *)

Definition buf_simdutf_validate_utf8 (buf : list byte) (len : Z) : Z :=
  if simdutf.validate_utf8 (view buf len) then 1 else 0.

Definition buf_simdutf_convert_utf8_to_utf16le
           (input : list byte) (length : Z) (output : list Z) : Z * list Z :=
  simdutf.convert_utf8_to_utf16le (view input length) output.

Definition buf_simdutf_utf16_length_from_utf8
           (input : list byte) (length : Z) : Z :=
  simdutf.utf16_length_from_utf8 (view input length).

Definition buf_simdutf_convert_utf8_to_chararray
           (input : list byte) (length : Z) (output : list Z) : Z * list Z :=
  simdutf.convert_utf8_to_utf16le (view input length) output.

(* ================================================================== *)
(** ** Vocabulary of the claims *)

(** [valid_utf8 s]: the byte sequence [s] is valid UTF-8 in its
    entirety. *)
Definition valid_utf8 (s : list byte) : Prop :=
  simdutf.validate_utf8 s = true.

(** [code_point_at s i = Some n]: offset [i] of [s] is the start of a
    code point that takes [n] bytes: the bytes before [i] are whole code
    points and one code point of [n] bytes decodes at [i]. *)
Definition code_point_at (s : list byte) (i : nat) : option nat :=
  if simdutf.validate_utf8 (firstn i s)
  then option_map snd (simdutf.decode_one (skipn i s))
  else None.

(** [ends_truncated s]: [s] ends in a truncated multi-byte sequence: a
    lead byte that announces [n] bytes, followed to the end of [s] by
    continuation bytes only, fewer than the [n - 1] it needs. *)
Definition ends_truncated (s : list byte) : Prop :=
  exists pre c conts n,
    s = pre ++ c :: conts
    /\ lead_seq_len (u8 c) = Some n
    /\ Forall (fun x => simdutf.is_continuation (u8 x) = true) conts
    /\ Z.of_nat (List.length conts) + 1 < n.

(** A byte that is neither a continuation byte nor any of the four lead
    patterns. *)
Definition invalid_lead (b : Z) : bool :=
  negb (simdutf.is_continuation b)
  && match lead_seq_len b with None => true | Some _ => false end.

(** [invalid_lead_within s w]: one of the last [w] bytes of [s] is an
    invalid lead byte. *)
Definition invalid_lead_within (s : list byte) (w : Z) : Prop :=
  exists j, Z.of_nat (List.length s) - w <= j < Z.of_nat (List.length s)
            /\ 0 <= j /\ invalid_lead (load s j) = true.

(** [last_lead_invalid s]: walking back from the end of [s] over
    continuation bytes, no further than 4 bytes, stops on an invalid lead
    byte. *)
Definition last_lead_invalid (s : list byte) : Prop :=
  exists j, Z.of_nat (List.length s) - 4 <= j < Z.of_nat (List.length s)
            /\ 0 <= j
            /\ (forall j', j < j' < Z.of_nat (List.length s) ->
                           simdutf.is_continuation (load s j') = true)
            /\ invalid_lead (load s j) = true.

(** The bytes [s[a..b)]. *)
Definition slice (s : list byte) (a b : nat) : list byte :=
  firstn (b - a) (skipn a s).

(** A pointer and a length the scanner may be called with: the length
    fits [size_t] and the buffer holds that many bytes. *)
Definition chunk (buffer : list byte) (length : Z) : Prop :=
  fits_size_t length /\ length <= Z.of_nat (List.length buffer).

(** Discharges [chunk] on a concrete buffer. *)
Ltac chunk_holds :=
  unfold chunk, fits_size_t, SIZE_MODULUS; simpl; lia.

(* ================================================================== *)
(** ** Examples of section 8 *)

Example boundary_euro_cut :
  find_utf8_boundary [x61; xe2; x82] = Some 1.
Proof. reflexivity. Qed.

Example euro_cut_invalid :
  buf_simdutf_validate_utf8 [x61; xe2; x82] 3 = 0.
Proof. reflexivity. Qed.

Example euro_complete :
  buf_simdutf_validate_utf8 [xe2; x82; xac] 3 = 1
  /\ buf_simdutf_utf16_length_from_utf8 [xe2; x82; xac] 3 = 1
  /\ buf_simdutf_convert_utf8_to_utf16le [xe2; x82; xac] 3 [0] = (1, [0x20AC]).
Proof. repeat split. Qed.

Example strict_rules :
  simdutf.validate_utf8 [] = true
  /\ simdutf.validate_utf8 [x80] = false
  /\ simdutf.validate_utf8 [xc0; x80] = false
  /\ simdutf.validate_utf8 [xe0; x9f; xbf] = false
  /\ simdutf.validate_utf8 [xed; xa0; x80] = false
  /\ simdutf.validate_utf8 [xf4; x90; x80; x80] = false
  /\ simdutf.validate_utf8 [xf8; x88; x80; x80; x80] = false.
Proof. repeat split. Qed.

Example surrogate_pair :
  buf_simdutf_convert_utf8_to_utf16le [xf0; x9f; x98; x80] 4 [0; 0; 7]
  = (2, [0xD83D; 0xDE00; 7])
  /\ buf_simdutf_utf16_length_from_utf8 [xf0; x9f; x98; x80] 4 = 2.
Proof. split; reflexivity. Qed.

Example empty_input :
  buf_simdutf_utf8_find_boundary [] 0 = Some 0
  /\ buf_simdutf_validate_utf8 [] 0 = 1
  /\ buf_simdutf_utf16_length_from_utf8 [] 0 = 0.
Proof. repeat split. Qed.

Example euro_starts :
  code_point_at [x61; xe2; x82; xac; x62] 1 = Some 3%nat
  /\ code_point_at [x61; xe2; x82; xac; x62] 2 = None.
Proof. split; reflexivity. Qed.

(* ================================================================== *)
(** ** Bytes and [size_t] *)

Lemma u8_range (c : byte) : 0 <= u8 c < 256.
Proof.
  unfold u8. pose proof (Byte.to_N_bounded c). lia.
Qed.

Lemma size_sub_exact (a b : Z) :
  fits_size_t a -> 0 <= b <= a -> size_sub a b = a - b.
Proof.
  unfold fits_size_t, size_sub. intros Ha Hb.
  apply Z.mod_small. lia.
Qed.

(** A byte with a lead pattern is not a continuation byte. *)
Lemma lead_not_continuation (c : byte) (n : Z) :
  lead_seq_len (u8 c) = Some n -> simdutf.is_continuation (u8 c) = false.
Proof.
  destruct c; vm_compute; congruence.
Qed.

Lemma continuation_not_ascii (c : byte) :
  simdutf.is_continuation (u8 c) = true -> (u8 c <? 0x80) = false.
Proof.
  destruct c; vm_compute; congruence.
Qed.

Lemma lead_seq_len_range (b n : Z) :
  lead_seq_len b = Some n -> 1 <= n <= 4.
Proof.
  unfold lead_seq_len.
  repeat match goal with |- context [if ?c then _ else _] => destruct c end;
    intros H; inversion H; lia.
Qed.

Lemma lead_seq_len_ascii (b : Z) :
  (b <? 0x80) = true -> lead_seq_len b = Some 1.
Proof.
  unfold lead_seq_len. intros ->. reflexivity.
Qed.

Lemma lead_seq_len_multi (b n : Z) :
  lead_seq_len b = Some n -> (b <? 0x80) = false -> 2 <= n.
Proof.
  unfold lead_seq_len. intros H Hb. rewrite Hb in H.
  repeat match type of H with context [if ?c then _ else _] => destruct c end;
    inversion H; lia.
Qed.

(* ================================================================== *)
(** ** The backward loop *)

Section Scan.

Variables (buffer : list byte) (length check_start : Z).
Hypothesis length_fits : fits_size_t length.
Hypothesis start_nonneg : 0 <= check_start.

(** The loop is left as soon as [i > check_start] fails. *)
Lemma scan_back_exit (fuel : nat) (i : Z) :
  i <= check_start ->
  scan_back fuel buffer length check_start i = Some check_start.
Proof.
  intros Hi. destruct fuel; simpl;
    destruct (i >? check_start) eqn:E; try reflexivity; lia.
Qed.

(** One iteration over a continuation byte. *)
Lemma scan_back_continuation (fuel : nat) (i : Z) :
  check_start < i <= length ->
  simdutf.is_continuation (load buffer (i - 1)) = true ->
  scan_back (S fuel) buffer length check_start i
  = scan_back fuel buffer length check_start (i - 1).
Proof.
  intros Hi Hc. simpl.
  destruct (i >? check_start) eqn:E; [|lia].
  rewrite size_sub_exact by (unfold fits_size_t in *; lia).
  unfold simdutf.is_continuation in Hc. rewrite Hc. reflexivity.
Qed.

(** One iteration over a byte that is not a continuation byte. *)
Lemma scan_back_lead (fuel : nat) (i : Z) :
  check_start < i <= length ->
  simdutf.is_continuation (load buffer (i - 1)) = false ->
  scan_back (S fuel) buffer length check_start i
  = Some (lead_verdict length (i - 1) (load buffer (i - 1))).
Proof.
  intros Hi Hc. simpl.
  destruct (i >? check_start) eqn:E; [|lia].
  rewrite size_sub_exact by (unfold fits_size_t in *; lia).
  unfold simdutf.is_continuation in Hc. rewrite Hc. reflexivity.
Qed.

(** Skipping [d] continuation bytes. *)
Lemma scan_back_skip (d : nat) :
  forall (fuel : nat) (i : Z),
    check_start <= i - Z.of_nat d -> i <= length ->
    (forall j, i - Z.of_nat d <= j < i ->
               simdutf.is_continuation (load buffer j) = true) ->
    scan_back (d + fuel) buffer length check_start i
    = scan_back fuel buffer length check_start (i - Z.of_nat d).
Proof.
  induction d as [|d IH]; intros fuel i Hlo Hhi Hc.
  - simpl. f_equal. lia.
  - change (S d + fuel)%nat with (S (d + fuel)).
    rewrite scan_back_continuation by (try apply Hc; lia).
    rewrite IH by (try (intros j Hj; apply Hc); lia).
    f_equal. lia.
Qed.

(** With fuel for every index between [check_start] and [i] the loop
    returns, and what it returns lies between [check_start] and
    [length]. *)
Lemma scan_back_returns (fuel : nat) :
  forall i : Z,
    check_start <= i <= length -> i - check_start <= Z.of_nat fuel ->
    exists b, scan_back fuel buffer length check_start i = Some b
              /\ check_start <= b <= length.
Proof.
  induction fuel as [|fuel IH]; intros i Hi Hf.
  - exists check_start. rewrite scan_back_exit by lia. split; [reflexivity|lia].
  - destruct (Z.eq_dec i check_start) as [->|Hne].
    + exists check_start. rewrite scan_back_exit by lia.
      split; [reflexivity|lia].
    + destruct (simdutf.is_continuation (load buffer (i - 1))) eqn:Hc.
      * rewrite scan_back_continuation by (trivial; lia).
        apply IH; lia.
      * rewrite scan_back_lead by (trivial; lia).
        eexists; split; [reflexivity|].
        unfold lead_verdict.
        destruct (lead_seq_len _); [destruct (_ <=? _)|]; lia.
Qed.

End Scan.

(* ================================================================== *)
(** ** What the scanner returns *)

Lemma load_continuation_not_ascii (buffer : list byte) (j : Z) :
  simdutf.is_continuation (load buffer j) = true ->
  (load buffer j <? 0x80) = false.
Proof. apply continuation_not_ascii. Qed.

Lemma load_lead_not_continuation (buffer : list byte) (j n : Z) :
  lead_seq_len (load buffer j) = Some n ->
  simdutf.is_continuation (load buffer j) = false.
Proof. apply lead_not_continuation. Qed.

Lemma check_start_exact (length : Z) :
  fits_size_t length ->
  (if length >? 4 then size_sub length 4 else 0) = Z.max 0 (length - 4).
Proof.
  intros Hf. destruct (length >? 4) eqn:E.
  - rewrite size_sub_exact by (trivial; lia). lia.
  - lia.
Qed.

(** The scanner always returns, between [max(0, length - 4)] and
    [length]. *)
Lemma find_boundary_returns (buffer : list byte) (length : Z) :
  fits_size_t length ->
  exists b, buf_simdutf_utf8_find_boundary buffer length = Some b
            /\ Z.max 0 (length - 4) <= b <= length.
Proof.
  intros Hf. unfold buf_simdutf_utf8_find_boundary.
  destruct (length =? 0) eqn:E0.
  { exists 0. split; [reflexivity|lia]. }
  destruct (load buffer (size_sub length 1) <? 128) eqn:Ea.
  { exists length. split; [reflexivity|unfold fits_size_t in Hf; lia]. }
  rewrite check_start_exact by trivial.
  apply scan_back_returns; unfold fits_size_t in *; trivial; lia.
Qed.

(** The walk stops on the byte at index [l], the last byte of the chunk
    that is not a continuation byte, when [l] is in the window. *)
Lemma find_boundary_lead (buffer : list byte) (length l : Z) :
  fits_size_t length ->
  0 <= l < length -> length - 4 <= l ->
  (forall j, l < j < length ->
             simdutf.is_continuation (load buffer j) = true) ->
  simdutf.is_continuation (load buffer l) = false ->
  buf_simdutf_utf8_find_boundary buffer length
  = Some (lead_verdict length l (load buffer l)).
Proof.
  intros Hf Hl Hw Hc Hn. unfold buf_simdutf_utf8_find_boundary.
  destruct (length =? 0) eqn:E0; [lia|].
  rewrite size_sub_exact by (trivial; lia).
  destruct (load buffer (length - 1) <? 128) eqn:Ea.
  - (* fast path: the last byte is ASCII, so it is the byte at [l] *)
    assert (l = length - 1) as ->.
    { destruct (Z.eq_dec l (length - 1)) as [|Hne]; trivial.
      rewrite load_continuation_not_ascii in Ea by (apply Hc; lia).
      discriminate. }
    unfold lead_verdict. rewrite (lead_seq_len_ascii _ Ea).
    rewrite size_sub_exact by (trivial; lia).
    destruct (1 <=? length - (length - 1)) eqn:E1; [reflexivity|lia].
  - rewrite check_start_exact by trivial.
    replace (Z.to_nat length)
      with (Z.to_nat (length - l - 1) + S (Z.to_nat l))%nat by lia.
    rewrite scan_back_skip; trivial; try lia.
    + rewrite Z2Nat.id by lia.
      rewrite scan_back_lead; trivial; try lia.
      * repeat f_equal; lia.
      * replace (length - (length - l - 1) - 1) with l by lia. exact Hn.
    + intros j Hj. apply Hc. lia.
Qed.

(** The walk finds nothing but continuation bytes in its window. *)
Lemma find_boundary_all_continuation (buffer : list byte) (length : Z) :
  fits_size_t length -> 0 < length ->
  (forall j, Z.max 0 (length - 4) <= j < length ->
             simdutf.is_continuation (load buffer j) = true) ->
  buf_simdutf_utf8_find_boundary buffer length
  = Some (Z.max 0 (length - 4)).
Proof.
  intros Hf Hl Hc. unfold buf_simdutf_utf8_find_boundary.
  destruct (length =? 0) eqn:E0; [lia|].
  rewrite size_sub_exact by (trivial; lia).
  rewrite load_continuation_not_ascii by (apply Hc; lia).
  rewrite check_start_exact by trivial.
  set (cs := Z.max 0 (length - 4)).
  replace (Z.to_nat length)
    with (Z.to_nat (length - cs) + Z.to_nat cs)%nat by lia.
  rewrite scan_back_skip; trivial; try lia.
  - apply scan_back_exit. lia.
  - intros j Hj. apply Hc. lia.
Qed.

(* ================================================================== *)
(** ** Properties of the scanner on arbitrary bytes *)

(** Claim C5.  The boundary scanner is total and its result is in range:
    for every chunk it returns a boundary [b] with [0 <= b <= length],
    never below [max(0, length - 4)], whatever the bytes are; for
    [length = 0] it returns 0. *)
Theorem find_boundary_in_range (buffer : list byte) (length : Z) :
  chunk buffer length ->
  (exists b, buf_simdutf_utf8_find_boundary buffer length = Some b
             /\ 0 <= b <= length
             /\ Z.max 0 (length - 4) <= b)
  /\ (length = 0 -> buf_simdutf_utf8_find_boundary buffer length = Some 0).
Proof.
  intros [Hf _]. split.
  - destruct (find_boundary_returns buffer length Hf) as (b & Hb & Hr).
    exists b. repeat split; trivial; lia.
  - intros ->. reflexivity.
Qed.

Lemma find_boundary_in_range_witness :
  chunk [x80; xbf; xff; x80; x80] 5
  /\ (exists b, buf_simdutf_utf8_find_boundary [x80; xbf; xff; x80; x80] 5
                = Some b
                /\ 0 <= b <= 5 /\ Z.max 0 (5 - 4) <= b)
  /\ (5 = 0 -> buf_simdutf_utf8_find_boundary [x80; xbf; xff; x80; x80] 5
               = Some 0).
Proof.
  split; [chunk_holds|].
  apply (find_boundary_in_range [x80; xbf; xff; x80; x80] 5). chunk_holds.
Defined.

(** Claim C6.  ASCII fast path: on a non-empty chunk whose last byte is
    below 0x80 the scanner returns [length], whatever the earlier bytes
    are. *)
Theorem ascii_fast_path (buffer : list byte) (length : Z) :
  chunk buffer length -> 0 < length ->
  load buffer (length - 1) < 0x80 ->
  buf_simdutf_utf8_find_boundary buffer length = Some length.
Proof.
  intros [Hf _] Hl Ha. unfold buf_simdutf_utf8_find_boundary.
  destruct (length =? 0) eqn:E0; [lia|].
  rewrite size_sub_exact by (trivial; lia).
  destruct (load buffer (length - 1) <? 128) eqn:E; [reflexivity|lia].
Qed.

Lemma ascii_fast_path_witness :
  chunk [xff; xe2; x41] 3 /\ 0 < 3 /\ load [xff; xe2; x41] (3 - 1) < 0x80
  /\ buf_simdutf_utf8_find_boundary [xff; xe2; x41] 3 = Some 3.
Proof.
  assert (Hc : chunk [xff; xe2; x41] 3) by chunk_holds.
  assert (Ha : load [xff; xe2; x41] (3 - 1) < 0x80) by (vm_compute; reflexivity).
  split; [exact Hc|]. split; [lia|]. split; [exact Ha|].
  apply (ascii_fast_path [xff; xe2; x41] 3); trivial; lia.
Defined.

(** Claim C7.  Invalid lead byte: when the last byte is not ASCII and the
    backward walk, within the window that starts at [max(0, length - 4)],
    stops at index [i] on a byte that is not a continuation byte and has
    none of the lead patterns, the scanner returns [i], as it does for an
    incomplete sequence. *)
Theorem invalid_lead_is_boundary (buffer : list byte) (length i : Z) :
  chunk buffer length -> 0 < length ->
  0x80 <= load buffer (length - 1) ->
  Z.max 0 (length - 4) <= i < length ->
  (forall j, i < j < length ->
             simdutf.is_continuation (load buffer j) = true) ->
  invalid_lead (load buffer i) = true ->
  buf_simdutf_utf8_find_boundary buffer length = Some i.
Proof.
  intros [Hf _] Hl Hlast Hi Hc Hinv.
  unfold invalid_lead in Hinv. apply andb_prop in Hinv as [Hn Hnone].
  apply negb_true_iff in Hn.
  rewrite (find_boundary_lead buffer length i) by (trivial; lia).
  unfold lead_verdict. destruct (lead_seq_len (load buffer i)).
  - discriminate.
  - reflexivity.
Qed.

Lemma invalid_lead_is_boundary_witness :
  buf_simdutf_utf8_find_boundary [x61; xf8; x80; x80] 4 = Some 1.
Proof.
  apply (invalid_lead_is_boundary [x61; xf8; x80; x80] 4 1).
  - chunk_holds.
  - lia.
  - vm_compute. discriminate.
  - lia.
  - intros j Hj. assert (j = 2 \/ j = 3) as [-> | ->] by lia; reflexivity.
  - reflexivity.
Defined.

(** Claim C8.  A window of continuation bytes: on a non-empty chunk whose
    bytes at the indices [max(0, length - 4) .. length) are all
    continuation bytes the scanner returns [max(0, length - 4)]; so it
    returns 0 when, besides, [length <= 4]. *)
Theorem all_continuation_window (buffer : list byte) (length : Z) :
  chunk buffer length -> 0 < length ->
  (forall j, Z.max 0 (length - 4) <= j < length ->
             simdutf.is_continuation (load buffer j) = true) ->
  buf_simdutf_utf8_find_boundary buffer length
  = Some (Z.max 0 (length - 4))
  /\ (length <= 4 -> buf_simdutf_utf8_find_boundary buffer length = Some 0).
Proof.
  intros [Hf _] Hl Hc.
  rewrite find_boundary_all_continuation by trivial.
  split; [reflexivity|]. intros H4. f_equal. lia.
Qed.

Lemma all_continuation_window_witness :
  buf_simdutf_utf8_find_boundary [x41; x80; xbf; x80; x9f; xa0] 6 = Some 2
  /\ buf_simdutf_utf8_find_boundary [x80; xbf; x80] 3 = Some 0.
Proof.
  split.
  - apply (all_continuation_window [x41; x80; xbf; x80; x9f; xa0] 6).
    + chunk_holds.
    + lia.
    + intros j Hj.
      assert (j = 2 \/ j = 3 \/ j = 4 \/ j = 5) as [-> | [-> | [-> | ->]]]
        by lia; reflexivity.
  - apply (all_continuation_window [x80; xbf; x80] 3).
    + chunk_holds.
    + lia.
    + intros j Hj.
      assert (j = 0 \/ j = 1 \/ j = 2) as [-> | [-> | ->]] by lia;
        reflexivity.
    + lia.
Defined.

(** Claim C10.  Whenever the scanner returns a boundary [b] strictly
    below [length], the bytes the caller keeps back are at most 4:
    [length - b <= 4]. *)
Theorem rebuffer_at_most_four (buffer : list byte) (length b : Z) :
  chunk buffer length ->
  buf_simdutf_utf8_find_boundary buffer length = Some b ->
  b < length ->
  length - b <= 4.
Proof.
  intros [Hf _] Hb _.
  destruct (find_boundary_returns buffer length Hf) as (b' & Hb' & Hr).
  rewrite Hb in Hb'. inversion Hb'. subst b'. lia.
Qed.

Lemma rebuffer_at_most_four_witness :
  buf_simdutf_utf8_find_boundary [x41; x42; x80; x80; x80; x80] 6 = Some 2
  /\ 6 - 2 <= 4.
Proof.
  assert (H : buf_simdutf_utf8_find_boundary [x41; x42; x80; x80; x80; x80] 6
              = Some 2) by reflexivity.
  split; [exact H|].
  apply (rebuffer_at_most_four [x41; x42; x80; x80; x80; x80] 6 2).
  - chunk_holds.
  - exact H.
  - lia.
Defined.

(* ================================================================== *)
(** ** Strict UTF-8 decoding *)

Import simdutf.

Lemma load_head (c : byte) (t : list byte) : load (c :: t) 0 = u8 c.
Proof. reflexivity. Qed.

Lemma load_skipn (s : list byte) (i : nat) (j : Z) :
  0 <= j -> load (skipn i s) j = load s (Z.of_nat i + j).
Proof.
  intros Hj. unfold load. rewrite nth_skipn. do 2 f_equal. lia.
Qed.

Lemma load_firstn (s : list byte) (k : nat) (j : Z) :
  0 <= j < Z.of_nat k -> load (firstn k s) j = load s j.
Proof.
  intros Hj. unfold load. rewrite nth_firstn.
  destruct (Nat.ltb_spec (Z.to_nat j) k); [reflexivity|lia].
Qed.

(** What a successful decoding step has seen: between 1 and 4 bytes, a
    first byte whose lead pattern announces exactly that many, and
    continuation bytes after it. *)
Lemma decode_one_shape (s : list byte) (cp : Z) (n : nat) :
  decode_one s = Some (cp, n) ->
  (1 <= n <= 4)%nat /\ (n <= List.length s)%nat
  /\ lead_seq_len (load s 0) = Some (Z.of_nat n)
  /\ (forall j, (0 < j < n)%nat ->
                is_continuation (load s (Z.of_nat j)) = true).
Proof.
  destruct s as [|c0 t]; [discriminate|].
  rewrite load_head. unfold decode_one, lead_seq_len. cbv zeta.
  destruct (u8 c0 <? 128) eqn:E1.
  { intros H; inversion H; subst. simpl. repeat split; try lia. }
  destruct (Z.land (u8 c0) 224 =? 192) eqn:E2.
  { destruct t as [|c1 t]; [discriminate|].
    destruct (is_continuation (u8 c1)) eqn:C1; [|discriminate].
    destruct (_ && _); [|discriminate].
    intros H; inversion H; subst. simpl. repeat split; try lia.
    intros j Hj. assert (j = 1%nat) as -> by lia. exact C1. }
  destruct (Z.land (u8 c0) 240 =? 224) eqn:E3.
  { destruct t as [|c1 [|c2 t]]; try discriminate.
    destruct (is_continuation (u8 c1)) eqn:C1; [|discriminate].
    destruct (is_continuation (u8 c2)) eqn:C2; [|discriminate].
    destruct (_ && _); [|discriminate].
    intros H; inversion H; subst. simpl. repeat split; try lia.
    intros j Hj.
    assert (j = 1%nat \/ j = 2%nat) as [-> | ->] by lia; assumption. }
  destruct (Z.land (u8 c0) 248 =? 240) eqn:E4.
  { destruct t as [|c1 [|c2 [|c3 t]]]; try discriminate.
    destruct (is_continuation (u8 c1)) eqn:C1; [|discriminate].
    destruct (is_continuation (u8 c2)) eqn:C2; [|discriminate].
    destruct (is_continuation (u8 c3)) eqn:C3; [|discriminate].
    destruct (_ && _); [|discriminate].
    intros H; inversion H; subst. simpl. repeat split; try lia.
    intros j Hj.
    assert (j = 1%nat \/ j = 2%nat \/ j = 3%nat) as [-> | [-> | ->]] by lia;
      assumption. }
  discriminate.
Qed.

(** A decoding step looks at the bytes of its code point only. *)
Lemma decode_one_local (s t' : list byte) (cp : Z) (n : nat) :
  decode_one s = Some (cp, n) ->
  decode_one (firstn n s ++ t') = Some (cp, n).
Proof.
  destruct s as [|c0 t]; [discriminate|].
  unfold decode_one. cbv zeta.
  destruct (u8 c0 <? 128) eqn:E1.
  { intros H; inversion H; subst. simpl. rewrite E1. reflexivity. }
  destruct (Z.land (u8 c0) 224 =? 192) eqn:E2.
  { destruct t as [|c1 t]; [discriminate|].
    destruct (_ && _) eqn:C; [|discriminate].
    intros H; inversion H; subst. simpl. rewrite E1, E2, C. reflexivity. }
  destruct (Z.land (u8 c0) 240 =? 224) eqn:E3.
  { destruct t as [|c1 [|c2 t]]; try discriminate.
    destruct (_ && _) eqn:C; [|discriminate].
    intros H; inversion H; subst. simpl.
    rewrite E1, E2, E3, C. reflexivity. }
  destruct (Z.land (u8 c0) 248 =? 240) eqn:E4.
  { destruct t as [|c1 [|c2 [|c3 t]]]; try discriminate.
    destruct (_ && _) eqn:C; [|discriminate].
    intros H; inversion H; subst. simpl.
    rewrite E1, E2, E3, E4, C. reflexivity. }
  discriminate.
Qed.

(** Fuel beyond the length of the buffer changes nothing. *)
Lemma decode_from_fuel (f1 : nat) :
  forall (f2 : nat) (s : list byte),
    (List.length s <= f1)%nat -> (List.length s <= f2)%nat ->
    decode_from f1 s = decode_from f2 s.
Proof.
  induction f1 as [|f1 IH]; intros f2 s H1 H2.
  - destruct s; [|simpl in H1; lia]. destruct f2; reflexivity.
  - destruct s as [|c t]; [destruct f2; reflexivity|].
    destruct f2 as [|f2]; [simpl in H2; lia|].
    cbn [decode_from].
    destruct (decode_one (c :: t)) as [[cp n]|] eqn:E; [|reflexivity].
    apply decode_one_shape in E as (Hn & _).
    rewrite (IH f2); [reflexivity| |];
      rewrite length_skipn; cbn [List.length] in *; lia.
Qed.

(** The decoder, unfolded by one code point. *)
Lemma decode_utf8_step (s : list byte) :
  s <> [] ->
  decode_utf8 s
  = match decode_one s with
    | None => None
    | Some (cp, n) =>
        match decode_utf8 (skipn n s) with
        | None => None
        | Some cps => Some (cp :: cps)
        end
    end.
Proof.
  intros Hs. unfold decode_utf8.
  destruct s as [|c t]; [congruence|].
  cbn [List.length decode_from].
  destruct (decode_one (c :: t)) as [[cp n]|] eqn:E; [|reflexivity].
  apply decode_one_shape in E as (Hn & _).
  rewrite (decode_from_fuel _ (List.length (skipn n (c :: t))));
    [reflexivity| |]; rewrite ?length_skipn; cbn [List.length]; lia.
Qed.

Lemma validate_nil : validate_utf8 [] = true.
Proof. reflexivity. Qed.

Lemma validate_step (s : list byte) :
  s <> [] -> validate_utf8 s = true ->
  exists cp n, decode_one s = Some (cp, n)
               /\ validate_utf8 (skipn n s) = true.
Proof.
  intros Hs. unfold validate_utf8. rewrite decode_utf8_step by trivial.
  destruct (decode_one s) as [[cp n]|]; [|discriminate].
  intros H. exists cp, n. split; [reflexivity|].
  destruct (decode_utf8 (skipn n s)); [reflexivity|discriminate].
Qed.

Lemma validate_cons (s : list byte) (cp : Z) (n : nat) :
  decode_one s = Some (cp, n) ->
  validate_utf8 (skipn n s) = true ->
  validate_utf8 s = true.
Proof.
  intros Hd Hv. unfold validate_utf8 in *.
  rewrite decode_utf8_step by (destruct s; [discriminate|congruence]).
  rewrite Hd. destruct (decode_utf8 (skipn n s)); [reflexivity|discriminate].
Qed.

(** The bytes of one code point are valid UTF-8 on their own. *)
Lemma validate_one (s : list byte) (cp : Z) (n : nat) :
  decode_one s = Some (cp, n) -> validate_utf8 (firstn n s) = true.
Proof.
  intros Hd. pose proof (decode_one_shape _ _ _ Hd) as (_ & Hlen & _).
  apply (validate_cons _ cp n).
  - rewrite <- (app_nil_r (firstn n s)). apply decode_one_local, Hd.
  - rewrite skipn_all2; [reflexivity|]. rewrite length_firstn. lia.
Qed.

(** Valid UTF-8 followed by valid UTF-8 is valid UTF-8. *)
Lemma validate_app (m : nat) :
  forall a b : list byte,
    (List.length a <= m)%nat ->
    validate_utf8 a = true -> validate_utf8 b = true ->
    validate_utf8 (a ++ b) = true.
Proof.
  induction m as [|m IH]; intros a b Hm Ha Hb.
  - destruct a; [exact Hb|simpl in Hm; lia].
  - destruct a as [|c t]; [exact Hb|].
    destruct (validate_step (c :: t)) as (cp & n & Hd & Hv);
      [discriminate|exact Ha|].
    pose proof (decode_one_shape _ _ _ Hd) as (Hn & Hlen & _).
    apply (validate_cons _ cp n).
    + rewrite <- (firstn_skipn n (c :: t)), <- app_assoc.
      apply decode_one_local, Hd.
    + rewrite skipn_app.
      replace (n - List.length (c :: t))%nat with 0%nat by lia.
      rewrite skipn_0. apply IH; trivial.
      rewrite length_skipn. cbn [List.length] in *. lia.
Qed.

(* ================================================================== *)
(** ** Code points of a valid buffer *)

Lemma code_point_at_inv (s : list byte) (i n : nat) :
  code_point_at s i = Some n ->
  validate_utf8 (firstn i s) = true
  /\ exists cp, decode_one (skipn i s) = Some (cp, n).
Proof.
  unfold code_point_at.
  destruct (validate_utf8 (firstn i s)); [|discriminate].
  destruct (decode_one (skipn i s)) as [[cp m]|]; [|discriminate].
  simpl. intros H. inversion H. subst. split; [reflexivity|].
  exists cp. reflexivity.
Qed.

Lemma code_point_at_intro (s : list byte) (i n : nat) (cp : Z) :
  validate_utf8 (firstn i s) = true ->
  decode_one (skipn i s) = Some (cp, n) ->
  code_point_at s i = Some n.
Proof.
  unfold code_point_at. intros -> ->. reflexivity.
Qed.

Lemma firstn_app_exact (a b : list byte) :
  firstn (List.length a) (a ++ b) = a.
Proof.
  rewrite firstn_app, Nat.sub_diag, firstn_all. simpl. apply app_nil_r.
Qed.

Lemma skipn_app_exact (a b : list byte) :
  skipn (List.length a) (a ++ b) = b.
Proof.
  rewrite skipn_app, Nat.sub_diag, skipn_all. reflexivity.
Qed.

(** The bytes up to the end of a code point are valid UTF-8. *)
Lemma code_point_at_end (s : list byte) (i n : nat) :
  code_point_at s i = Some n ->
  (i + n <= List.length s)%nat
  /\ validate_utf8 (firstn (i + n) s) = true.
Proof.
  intros H. apply code_point_at_inv in H as (Hv & cp & Hd).
  pose proof (decode_one_shape _ _ _ Hd) as (_ & Hlen & _).
  rewrite length_skipn in Hlen.
  assert (Hi : (i <= List.length s)%nat).
  { destruct (Nat.le_gt_cases i (List.length s)) as [|Hgt]; trivial.
    rewrite skipn_all2 in Hd by lia. discriminate. }
  split; [lia|].
  replace (firstn (i + n) s) with (firstn i s ++ firstn n (skipn i s)).
  - apply (validate_app (List.length (firstn i s))); trivial.
    apply (validate_one _ cp), Hd.
  - rewrite <- (firstn_skipn i s) at 3.
    rewrite firstn_app, length_firstn.
    rewrite firstn_firstn.
    replace (Nat.min (i + n) i) with i by lia.
    replace (i + n - Nat.min i (List.length s))%nat with n by lia.
    reflexivity.
Qed.

(** Every byte of a valid buffer lies in one of its code points. *)
Lemma code_points_cover_from (m : nat) :
  forall (pre s : list byte) (k : nat),
    (List.length s <= m)%nat ->
    validate_utf8 pre = true -> validate_utf8 s = true ->
    (k < List.length s)%nat ->
    exists i n,
      code_point_at (pre ++ s) (List.length pre + i) = Some n
      /\ (i <= k < i + n)%nat /\ (i + n <= List.length s)%nat.
Proof.
  induction m as [|m IH]; intros pre s k Hm Hp Hs Hk; [lia|].
  destruct (validate_step s) as (cp & n & Hd & Hv);
    [destruct s; [simpl in Hk; lia|discriminate]|exact Hs|].
  pose proof (decode_one_shape _ _ _ Hd) as (Hn & Hlen & _).
  destruct (Nat.lt_ge_cases k n) as [Hlt|Hge].
  - exists 0%nat, n. split; [|lia].
    rewrite Nat.add_0_r. apply (code_point_at_intro _ _ _ cp).
    + rewrite firstn_app_exact. exact Hp.
    + rewrite skipn_app_exact. exact Hd.
  - destruct (IH (pre ++ firstn n s) (skipn n s) (k - n)%nat)
      as (i & n' & Hc & Hik & Hin).
    + rewrite length_skipn. lia.
    + apply (validate_app (List.length pre)); trivial.
      apply (validate_one _ cp), Hd.
    + exact Hv.
    + rewrite length_skipn. lia.
    + rewrite length_skipn in Hin.
      rewrite <- app_assoc, firstn_skipn in Hc.
      rewrite length_app, length_firstn in Hc.
      exists (n + i)%nat, n'. split; [|lia].
      rewrite <- Hc. f_equal. lia.
Qed.

Lemma code_points_cover (s : list byte) (k : nat) :
  validate_utf8 s = true -> (k < List.length s)%nat ->
  exists i n,
    code_point_at s i = Some n
    /\ (i <= k < i + n)%nat /\ (i + n <= List.length s)%nat.
Proof.
  intros Hs Hk.
  apply (code_points_cover_from (List.length s) [] s k); trivial.
Qed.

(* ================================================================== *)
(** ** The scanner on the code points of a buffer *)

(** The bytes of the code point at offset [i], read through [load]. *)
Lemma code_point_bytes (s : list byte) (i n : nat) :
  code_point_at s i = Some n ->
  (1 <= n <= 4)%nat /\ (i + n <= List.length s)%nat
  /\ lead_seq_len (load s (Z.of_nat i)) = Some (Z.of_nat n)
  /\ (forall j, Z.of_nat i < j < Z.of_nat i + Z.of_nat n ->
                is_continuation (load s j) = true).
Proof.
  intros H. pose proof (code_point_at_end _ _ _ H) as (Hlen & _).
  apply code_point_at_inv in H as (_ & cp & Hd).
  apply decode_one_shape in Hd as (Hn & _ & Hlead & Hcont).
  rewrite load_skipn, Z.add_0_r in Hlead by lia.
  repeat split; trivial; try lia.
  intros j Hj.
  specialize (Hcont (Z.to_nat (j - Z.of_nat i))).
  rewrite load_skipn in Hcont by lia.
  replace (Z.of_nat i + Z.of_nat (Z.to_nat (j - Z.of_nat i))) with j
    in Hcont by lia.
  apply Hcont. lia.
Qed.

(** A chunk that ends inside or at the end of the code point at [i]:
    the scanner cuts at [i] when bytes of the code point are missing and
    keeps the whole chunk when they are all there. *)
Lemma find_boundary_code_point (s : list byte) (i n k : nat) :
  fits_size_t (Z.of_nat (List.length s)) ->
  code_point_at s i = Some n ->
  (i < k <= i + n)%nat ->
  buf_simdutf_utf8_find_boundary (firstn k s) (Z.of_nat k)
  = Some (if (k <? i + n)%nat then Z.of_nat i else Z.of_nat k).
Proof.
  intros Hf Hcp Hk.
  apply code_point_bytes in Hcp as (Hn & Hlen & Hlead & Hcont).
  assert (Hfk : fits_size_t (Z.of_nat k)) by (unfold fits_size_t in *; lia).
  rewrite (find_boundary_lead (firstn k s) (Z.of_nat k) (Z.of_nat i));
    trivial; try lia.
  - unfold lead_verdict. rewrite load_firstn by lia. rewrite Hlead.
    rewrite size_sub_exact by (trivial; lia).
    destruct (Nat.ltb_spec k (i + n));
      destruct (Z.leb_spec (Z.of_nat n) (Z.of_nat k - Z.of_nat i));
      trivial; lia.
  - intros j Hj. rewrite load_firstn by lia. apply Hcont. lia.
  - rewrite load_firstn by lia.
    apply (load_lead_not_continuation _ _ _ Hlead).
Qed.

(** A buffer that is valid UTF-8 as a whole is kept whole. *)
Lemma find_boundary_valid (s : list byte) :
  fits_size_t (Z.of_nat (List.length s)) ->
  validate_utf8 s = true ->
  find_utf8_boundary s = Some (Z.of_nat (List.length s)).
Proof.
  intros Hf Hv. unfold find_utf8_boundary.
  destruct s as [|c t] eqn:Es; [reflexivity|]. rewrite <- Es in *.
  assert (Hpos : (0 < List.length s)%nat) by (subst s; simpl; lia).
  destruct (code_points_cover s (List.length s - 1)) as (i & n & Hcp & Hi & Hin);
    trivial; try lia.
  pose proof (find_boundary_code_point s i n (List.length s) Hf Hcp) as H.
  rewrite firstn_all in H. rewrite H by lia.
  destruct (Nat.ltb_spec (List.length s) (i + n)); [lia|reflexivity].
Qed.

(** Claim C1.  Boundary truncation: when [s] is valid UTF-8 and the
    truncation point [k] lies strictly inside the code point of [s] that
    starts at offset [i] and takes [n] bytes, the scanner, called on the
    prefix [s[0..k)] with length [k], returns [i]. *)
Theorem boundary_truncation (s : list byte) (i n k : nat) :
  fits_size_t (Z.of_nat (List.length s)) ->
  valid_utf8 s ->
  code_point_at s i = Some n ->
  (i < k < i + n)%nat ->
  buf_simdutf_utf8_find_boundary (firstn k s) (Z.of_nat k)
  = Some (Z.of_nat i).
Proof.
  intros Hf _ Hcp Hk.
  rewrite (find_boundary_code_point s i n k) by (trivial; lia).
  destruct (Nat.ltb_spec k (i + n)); [reflexivity|lia].
Qed.

Lemma boundary_truncation_witness :
  buf_simdutf_utf8_find_boundary (firstn 3 [x61; xe2; x82; xac; x62]) 3
  = Some 1.
Proof.
  apply (boundary_truncation [x61; xe2; x82; xac; x62] 1 3 3).
  - unfold fits_size_t, SIZE_MODULUS. simpl. lia.
  - reflexivity.
  - reflexivity.
  - lia.
Defined.

(** Claim C3.  Boundary idempotence on full sequences: a byte sequence
    that is valid UTF-8 in its entirety is never truncated, the scanner
    returns its length. *)
Theorem boundary_of_valid_is_length (s : list byte) :
  fits_size_t (Z.of_nat (List.length s)) ->
  valid_utf8 s ->
  buf_simdutf_utf8_find_boundary s (Z.of_nat (List.length s))
  = Some (Z.of_nat (List.length s)).
Proof.
  intros Hf Hv. apply (find_boundary_valid s Hf Hv).
Qed.

Lemma boundary_of_valid_is_length_witness :
  buf_simdutf_utf8_find_boundary
    [x61; xc3; xa9; xe2; x82; xac; xf0; x9f; x98; x80]
    (Z.of_nat (List.length [x61; xc3; xa9; xe2; x82; xac; xf0; x9f; x98; x80]))
  = Some (Z.of_nat
            (List.length [x61; xc3; xa9; xe2; x82; xac; xf0; x9f; x98; x80])).
Proof.
  apply (boundary_of_valid_is_length
           [x61; xc3; xa9; xe2; x82; xac; xf0; x9f; x98; x80]).
  - unfold fits_size_t, SIZE_MODULUS. simpl. lia.
  - reflexivity.
Defined.

(** Claim C2.  Chunk reassembly: for [s] valid UTF-8 and any split offset
    [k] in [0, len(s)], the scanner called on [s[0..k)] returns a
    boundary [b] such that [s[0..b) ++ s[b..k) ++ s[k..len(s))] is [s]
    again and the validator accepts the prefix [s[0..b)]. *)
Theorem chunk_reassembly (s : list byte) (k : nat) :
  fits_size_t (Z.of_nat (List.length s)) ->
  valid_utf8 s ->
  (k <= List.length s)%nat ->
  exists b : nat,
    buf_simdutf_utf8_find_boundary (firstn k s) (Z.of_nat k)
    = Some (Z.of_nat b)
    /\ (b <= k)%nat
    /\ slice s 0 b ++ slice s b k ++ slice s k (List.length s) = s
    /\ buf_simdutf_validate_utf8 (slice s 0 b) (Z.of_nat b) = 1.
Proof.
  intros Hf Hv Hk.
  assert (Hslices : forall b, (b <= k)%nat ->
            slice s 0 b ++ slice s b k ++ slice s k (List.length s) = s).
  { intros b Hb. unfold slice. rewrite skipn_0, Nat.sub_0_r.
    rewrite (firstn_all2 (skipn k s)) by (rewrite length_skipn; lia).
    rewrite <- (firstn_skipn b s) at 4. f_equal.
    rewrite <- (firstn_skipn (k - b) (skipn b s)) at 2. f_equal.
    rewrite skipn_skipn. f_equal. lia. }
  assert (Hval : forall b, (b <= List.length s)%nat ->
            validate_utf8 (firstn b s) = true ->
            buf_simdutf_validate_utf8 (slice s 0 b) (Z.of_nat b) = 1).
  { intros b Hb Hvb. unfold buf_simdutf_validate_utf8, view, slice.
    rewrite skipn_0, Nat.sub_0_r, Nat2Z.id, firstn_firstn, Nat.min_id.
    rewrite Hvb. reflexivity. }
  destruct k as [|k'].
  { exists 0%nat. split; [reflexivity|]. split; [lia|].
    split; [apply Hslices; lia|]. apply Hval; [lia|reflexivity]. }
  destruct (code_points_cover s k') as (i & n & Hcp & Hi & Hin);
    trivial; try lia.
  pose proof (find_boundary_code_point s i n (S k') Hf Hcp) as H.
  rewrite H by lia. clear H.
  destruct (Nat.ltb_spec (S k') (i + n)) as [Hin'|Hout].
  - exists i. repeat split; try lia.
    + apply Hslices. lia.
    + apply Hval; [lia|]. apply code_point_at_inv in Hcp as [Hp _]. exact Hp.
  - exists (S k'). repeat split; try lia.
    + apply Hslices. lia.
    + apply Hval; [lia|].
      replace (S k') with (i + n)%nat by lia.
      apply code_point_at_end, Hcp.
Qed.

Lemma chunk_reassembly_witness :
  exists b : nat,
    buf_simdutf_utf8_find_boundary
      (firstn 5 [x61; xc3; xa9; xe2; x82; xac; x62]) 5
    = Some (Z.of_nat b)
    /\ (b <= 5)%nat
    /\ slice [x61; xc3; xa9; xe2; x82; xac; x62] 0 b
       ++ slice [x61; xc3; xa9; xe2; x82; xac; x62] b 5
       ++ slice [x61; xc3; xa9; xe2; x82; xac; x62] 5
                (List.length [x61; xc3; xa9; xe2; x82; xac; x62])
       = [x61; xc3; xa9; xe2; x82; xac; x62]
    /\ buf_simdutf_validate_utf8
         (slice [x61; xc3; xa9; xe2; x82; xac; x62] 0 b) (Z.of_nat b) = 1.
Proof.
  apply (chunk_reassembly [x61; xc3; xa9; xe2; x82; xac; x62] 5).
  - unfold fits_size_t, SIZE_MODULUS. simpl. lia.
  - reflexivity.
  - simpl. lia.
Defined.

(* ================================================================== *)
(** ** What a returned boundary says about the bytes before it *)

Lemma load_app_head (pre : list byte) (c : byte) (t : list byte) :
  load (pre ++ c :: t) (Z.of_nat (List.length pre)) = u8 c.
Proof.
  unfold load. rewrite Nat2Z.id, app_nth2, Nat.sub_diag by lia. reflexivity.
Qed.

Lemma load_app_tail (pre : list byte) (c : byte) (t : list byte) (j : Z) :
  Z.of_nat (List.length pre) < j
  < Z.of_nat (List.length pre) + 1 + Z.of_nat (List.length t) ->
  In (nth (Z.to_nat j) (pre ++ c :: t) x00) t.
Proof.
  intros Hj. rewrite app_nth2 by lia.
  replace (Z.to_nat j - List.length pre)%nat
    with (S (Z.to_nat j - List.length pre - 1)) by lia.
  cbn [nth]. apply nth_In. lia.
Qed.

(** A chunk the scanner keeps whole does not end in a truncated
    sequence. *)
Lemma kept_whole_not_truncated (s : list byte) :
  fits_size_t (Z.of_nat (List.length s)) ->
  find_utf8_boundary s = Some (Z.of_nat (List.length s)) ->
  ~ ends_truncated s.
Proof.
  intros Hf Hb (pre & c & conts & n & Hs & Hlead & Hconts & Hlt).
  pose proof (lead_seq_len_range _ _ Hlead) as Hn.
  assert (Hlen : Z.of_nat (List.length s)
                 = Z.of_nat (List.length pre) + 1
                   + Z.of_nat (List.length conts)).
  { subst s. rewrite length_app. cbn [List.length]. lia. }
  unfold find_utf8_boundary in Hb.
  rewrite (find_boundary_lead s _ (Z.of_nat (List.length pre))) in Hb;
    trivial; try lia.
  - unfold lead_verdict in Hb. subst s.
    rewrite load_app_head, Hlead in Hb.
    rewrite size_sub_exact in Hb by (trivial; lia).
    destruct (Z.leb_spec n
                (Z.of_nat (List.length (pre ++ c :: conts))
                 - Z.of_nat (List.length pre))); [lia|].
    inversion Hb. lia.
  - intros j Hj. subst s. unfold load.
    rewrite Forall_forall in Hconts. apply Hconts.
    apply load_app_tail. lia.
  - subst s. rewrite load_app_head.
    apply (lead_not_continuation _ _ Hlead).
Qed.

(** Nor does its backward walk stop on an invalid lead byte. *)
Lemma kept_whole_lead_valid (s : list byte) :
  fits_size_t (Z.of_nat (List.length s)) ->
  find_utf8_boundary s = Some (Z.of_nat (List.length s)) ->
  ~ last_lead_invalid s.
Proof.
  intros Hf Hb (j & Hj & H0 & Hc & Hinv).
  unfold invalid_lead in Hinv. apply andb_prop in Hinv as [Hn Hnone].
  apply negb_true_iff in Hn.
  unfold find_utf8_boundary in Hb.
  rewrite (find_boundary_lead s _ j) in Hb; trivial; try lia.
  unfold lead_verdict in Hb.
  destruct (lead_seq_len (load s j)); [discriminate|].
  inversion Hb. lia.
Qed.

(** Claim C4, as the specification words it, fails on both counts: the
    prefix returned for [E2 82 FF] is [E2 82], a truncated three-byte
    sequence, and [FF 41] is returned whole although [FF] is an invalid
    lead byte. *)
Lemma boundary_prefix_not_clean :
  buf_simdutf_utf8_find_boundary [xe2; x82; xff] 3 = Some 2
  /\ ends_truncated (view [xe2; x82; xff] 2)
  /\ buf_simdutf_utf8_find_boundary [xff; x41] 2 = Some 2
  /\ invalid_lead_within (view [xff; x41] 2) 4.
Proof.
  split; [reflexivity|]. split.
  - exists [], xe2, [x82], 3.
    split; [reflexivity|]. split; [reflexivity|]. split.
    + constructor; [reflexivity|constructor].
    + simpl. lia.
  - split; [reflexivity|]. exists 0.
    split; [simpl; lia|]. split; [lia|reflexivity].
Qed.

(** Claim C4, amended.  When the scanner returns [length] itself, so that
    nothing is cut, the chunk does not end in a truncated multi-byte
    sequence, and the byte its backward walk stops on within the last 4
    bytes is not an invalid lead byte. *)
Theorem kept_whole_tail_is_clean (s : list byte) :
  fits_size_t (Z.of_nat (List.length s)) ->
  buf_simdutf_utf8_find_boundary s (Z.of_nat (List.length s))
  = Some (Z.of_nat (List.length s)) ->
  ~ ends_truncated s /\ ~ last_lead_invalid s.
Proof.
  intros Hf Hb. split.
  - apply kept_whole_not_truncated; trivial.
  - apply kept_whole_lead_valid; trivial.
Qed.

Lemma kept_whole_tail_is_clean_witness :
  ~ ends_truncated [xff; xe2; x82; xac]
  /\ ~ last_lead_invalid [xff; xe2; x82; xac].
Proof.
  apply (kept_whole_tail_is_clean [xff; xe2; x82; xac]).
  - unfold fits_size_t, SIZE_MODULUS. simpl. lia.
  - reflexivity.
Defined.

(* ================================================================== *)
(** ** Transcoding and its size estimate *)

Lemma encode_utf16_length (cp : Z) :
  Z.of_nat (List.length (encode_utf16 cp)) = utf16_units cp.
Proof.
  unfold encode_utf16, utf16_units.
  destruct (cp <? 65536); reflexivity.
Qed.

Lemma units_written_sum (cps : list Z) :
  Z.of_nat (List.length (flat_map encode_utf16 cps))
  = fold_right (fun cp acc => utf16_units cp + acc) 0 cps.
Proof.
  induction cps as [|cp cps IH]; [reflexivity|].
  cbn [flat_map fold_right].
  rewrite length_app, Nat2Z.inj_add, encode_utf16_length, IH. reflexivity.
Qed.

(** Claim C9.  Round-trip sizing: on valid UTF-8 input the number of code
    units the transcoder reports as written equals the count the size
    estimator returns for the same input. *)
Theorem units_written_match_estimate
        (input : list byte) (length : Z) (output : list Z) :
  valid_utf8 (view input length) ->
  fst (buf_simdutf_convert_utf8_to_utf16le input length output)
  = buf_simdutf_utf16_length_from_utf8 input length.
Proof.
  unfold valid_utf8, validate_utf8.
  unfold buf_simdutf_convert_utf8_to_utf16le,
    buf_simdutf_utf16_length_from_utf8,
    convert_utf8_to_utf16le, utf16_length_from_utf8.
  destruct (decode_utf8 (view input length)) as [cps|]; [|discriminate].
  intros _. cbn [fst]. apply units_written_sum.
Qed.

Lemma units_written_match_estimate_witness :
  fst (buf_simdutf_convert_utf8_to_utf16le
         [x61; xe2; x82; xac; xf0; x9f; x98; x80] 8 [0; 0; 0; 0])
  = buf_simdutf_utf16_length_from_utf8
      [x61; xe2; x82; xac; xf0; x9f; x98; x80] 8.
Proof.
  apply (units_written_match_estimate
           [x61; xe2; x82; xac; xf0; x9f; x98; x80] 8 [0; 0; 0; 0]).
  reflexivity.
Defined.

(* ================================================================== *)
(** ** The window of the backward walk *)

(** Walking back [d] bytes from the end either meets a byte that is not
    a continuation byte, with continuation bytes only after it, or sees
    continuation bytes only. *)
Lemma window_walk_from (buffer : list byte) (length : Z) (d : nat) :
  (exists l, length - Z.of_nat d <= l < length
             /\ is_continuation (load buffer l) = false
             /\ (forall j, l < j < length ->
                           is_continuation (load buffer j) = true))
  \/ (forall j, length - Z.of_nat d <= j < length ->
                is_continuation (load buffer j) = true).
Proof.
  induction d as [|d IH].
  - right. intros j Hj. lia.
  - destruct IH as [(l & Hl & Hn & Hc)|Hall].
    + left. exists l. split; [lia|]. split; assumption.
    + destruct (is_continuation (load buffer (length - Z.of_nat (S d))))
        eqn:E.
      * right. intros j Hj.
        destruct (Z.eq_dec j (length - Z.of_nat (S d))) as [->|Hne];
          [exact E|]. apply Hall. lia.
      * left. exists (length - Z.of_nat (S d)).
        split; [lia|]. split; [exact E|].
        intros j Hj. apply Hall. lia.
Qed.

Lemma window_walk_cases (buffer : list byte) (length : Z) :
  0 <= length ->
  (exists l, Z.max 0 (length - 4) <= l < length
             /\ is_continuation (load buffer l) = false
             /\ (forall j, l < j < length ->
                           is_continuation (load buffer j) = true))
  \/ (forall j, Z.max 0 (length - 4) <= j < length ->
                is_continuation (load buffer j) = true).
Proof.
  intros Hl.
  pose proof (window_walk_from buffer length
                (Z.to_nat (length - Z.max 0 (length - 4)))) as H.
  rewrite Z2Nat.id in H by lia.
  replace (length - (length - Z.max 0 (length - 4)))
    with (Z.max 0 (length - 4)) in H by lia.
  exact H.
Qed.

(** The scanner's result is a function of [length] and of the bytes in
    the window. *)
Lemma find_boundary_ext (b1 b2 : list byte) (length : Z) :
  fits_size_t length ->
  (forall j, Z.max 0 (length - 4) <= j < length -> load b1 j = load b2 j) ->
  buf_simdutf_utf8_find_boundary b1 length
  = buf_simdutf_utf8_find_boundary b2 length.
Proof.
  intros Hf He.
  destruct (Z.eq_dec length 0) as [->|Hne]; [reflexivity|].
  assert (Hpos : 0 < length) by (unfold fits_size_t in Hf; lia).
  destruct (window_walk_cases b1 length) as [(l & Hl & Hn & Hc)|Hall];
    [lia| |].
  - rewrite (find_boundary_lead b1 length l),
      (find_boundary_lead b2 length l); trivial; try lia.
    + rewrite He by lia. reflexivity.
    + intros j Hj. rewrite <- He by lia. apply Hc. lia.
    + rewrite <- He by lia. exact Hn.
  - rewrite !find_boundary_all_continuation; trivial.
    intros j Hj. rewrite <- He by trivial. apply Hall. exact Hj.
Qed.

(** What the scanner has seen when it cuts. *)
Lemma find_boundary_cut_inv (buffer : list byte) (length b : Z) :
  fits_size_t length ->
  buf_simdutf_utf8_find_boundary buffer length = Some b ->
  b < length ->
  (forall j, b < j < length -> is_continuation (load buffer j) = true)
  /\ (invalid_lead (load buffer b) = true
      \/ (exists n, lead_seq_len (load buffer b) = Some n /\ length - b < n)
      \/ (is_continuation (load buffer b) = true
          /\ b = Z.max 0 (length - 4))).
Proof.
  intros Hf Hb Hlt.
  assert (Hpos : 0 < length).
  { destruct (find_boundary_returns buffer length Hf) as (b' & Hb' & Hr).
    rewrite Hb in Hb'. inversion Hb'. subst b'. lia. }
  destruct (window_walk_cases buffer length) as [(l & Hl & Hn & Hc)|Hall];
    [lia| |].
  - rewrite (find_boundary_lead buffer length l) in Hb; trivial; try lia.
    unfold lead_verdict in Hb.
    destruct (lead_seq_len (load buffer l)) as [n|] eqn:En.
    + rewrite size_sub_exact in Hb by (trivial; lia).
      destruct (Z.leb_spec n (length - l)); inversion Hb; subst b; [lia|].
      split; [exact Hc|]. right. left. exists n. split; [exact En|lia].
    + inversion Hb. subst b. split; [exact Hc|]. left.
      unfold invalid_lead. rewrite Hn, En. reflexivity.
  - rewrite find_boundary_all_continuation in Hb by trivial.
    inversion Hb. subst b. split.
    + intros j Hj. apply Hall. lia.
    + right. right. split; [apply Hall; lia|reflexivity].
Qed.

Lemma load_app_shift (pre s : list byte) (j : Z) :
  0 <= j -> load (pre ++ s) (Z.of_nat (List.length pre) + j) = load s j.
Proof.
  intros Hj. unfold load. rewrite app_nth2 by lia. do 2 f_equal. lia.
Qed.

Lemma lead_verdict_shift (p length l x : Z) :
  0 <= p -> fits_size_t (p + length) -> 0 <= l <= length ->
  lead_verdict (p + length) (p + l) x = p + lead_verdict length l x.
Proof.
  intros Hp Hf Hl. unfold lead_verdict.
  destruct (lead_seq_len x); [|reflexivity].
  rewrite !size_sub_exact by (unfold fits_size_t in *; lia).
  replace (p + length - (p + l)) with (length - l) by lia.
  destruct (_ <=? _); reflexivity.
Qed.

(** On a chunk of 4 bytes or more, bytes put in front only shift the
    boundary. *)
Lemma find_boundary_shift (pre s : list byte) :
  fits_size_t (Z.of_nat (List.length (pre ++ s))) ->
  (4 <= List.length s)%nat ->
  find_utf8_boundary (pre ++ s)
  = option_map (Z.add (Z.of_nat (List.length pre))) (find_utf8_boundary s).
Proof.
  intros Hf H4. unfold find_utf8_boundary.
  rewrite length_app, Nat2Z.inj_add in *.
  set (p := Z.of_nat (List.length pre)) in *.
  set (L := Z.of_nat (List.length s)) in *.
  assert (Hp : 0 <= p) by (subst p; lia).
  assert (HL : 4 <= L) by (subst L; lia).
  assert (HfL : fits_size_t L) by (unfold fits_size_t in *; lia).
  assert (Hload : forall j, p <= j -> load (pre ++ s) j = load s (j - p)).
  { intros j Hj. replace j with (p + (j - p)) at 1 by lia.
    apply load_app_shift. lia. }
  destruct (window_walk_cases s L) as [(l & Hl & Hn & Hc)|Hall]; [lia| |].
  - rewrite (find_boundary_lead s L l); trivial; try lia.
    rewrite (find_boundary_lead (pre ++ s) (p + L) (p + l));
      trivial; try lia.
    + rewrite Hload by lia. replace (p + l - p) with l by lia.
      cbn [option_map]. f_equal. apply lead_verdict_shift; trivial; lia.
    + intros j Hj. rewrite Hload by lia. apply Hc. lia.
    + rewrite Hload by lia. replace (p + l - p) with l by lia. exact Hn.
  - rewrite (find_boundary_all_continuation s L); trivial; try lia.
    rewrite (find_boundary_all_continuation (pre ++ s) (p + L));
      trivial; try lia.
    + cbn [option_map]. f_equal. lia.
    + intros j Hj. rewrite Hload by lia. apply Hall. lia.
Qed.

(* ================================================================== *)
(** ** Further properties of the scanner *)

(** The scanner reads nothing outside the last 4 bytes of the chunk: two
    buffers that agree at the indices [max(0, length - 4) .. length) get
    the same boundary. *)
Theorem scanner_reads_window_only (b1 b2 : list byte) (length : Z) :
  chunk b1 length -> chunk b2 length ->
  (forall j, Z.max 0 (length - 4) <= j < length -> load b1 j = load b2 j) ->
  buf_simdutf_utf8_find_boundary b1 length
  = buf_simdutf_utf8_find_boundary b2 length.
Proof.
  intros [Hf _] _ He. apply find_boundary_ext; trivial.
Qed.

Lemma scanner_reads_window_only_witness :
  buf_simdutf_utf8_find_boundary [xff; x41; x42; x43; xe2; x82] 6
  = buf_simdutf_utf8_find_boundary [xc3; xf0; x42; x43; xe2; x82] 6.
Proof.
  apply (scanner_reads_window_only
           [xff; x41; x42; x43; xe2; x82] [xc3; xf0; x42; x43; xe2; x82] 6).
  - chunk_holds.
  - chunk_holds.
  - intros j Hj.
    assert (j = 2 \/ j = 3 \/ j = 4 \/ j = 5) as [-> | [-> | [-> | ->]]]
      by lia; reflexivity.
Defined.

(** On a chunk of at least 4 bytes the number of bytes held back depends
    on the last 4 bytes only: the boundary of [pre ++ s] is the boundary
    of [s] moved by the length of [pre]. *)
Theorem last_four_bytes_decide (pre s : list byte) :
  fits_size_t (Z.of_nat (List.length (pre ++ s))) ->
  (4 <= List.length s)%nat ->
  buf_simdutf_utf8_find_boundary (pre ++ s)
    (Z.of_nat (List.length (pre ++ s)))
  = option_map (Z.add (Z.of_nat (List.length pre)))
      (buf_simdutf_utf8_find_boundary s (Z.of_nat (List.length s))).
Proof.
  intros Hf H4. apply (find_boundary_shift pre s Hf H4).
Qed.

Lemma last_four_bytes_decide_witness :
  buf_simdutf_utf8_find_boundary
    ([xff; xe2; x82] ++ [x41; x42; xf0; x9f])
    (Z.of_nat (List.length ([xff; xe2; x82] ++ [x41; x42; xf0; x9f])))
  = option_map (Z.add (Z.of_nat (List.length [xff; xe2; x82])))
      (buf_simdutf_utf8_find_boundary [x41; x42; xf0; x9f]
         (Z.of_nat (List.length [x41; x42; xf0; x9f]))).
Proof.
  apply (last_four_bytes_decide [xff; xe2; x82] [x41; x42; xf0; x9f]).
  - unfold fits_size_t, SIZE_MODULUS. simpl. lia.
  - simpl. lia.
Defined.

(** When the scanner cuts, at [b < length], every byte after index [b]
    is a continuation byte, and the byte at [b] is an invalid lead byte,
    or a lead byte whose sequence needs more bytes than the chunk has
    left, or a continuation byte at the start of the window. *)
Theorem cut_classification (buffer : list byte) (length b : Z) :
  chunk buffer length ->
  buf_simdutf_utf8_find_boundary buffer length = Some b ->
  b < length ->
  (forall j, b < j < length -> is_continuation (load buffer j) = true)
  /\ (invalid_lead (load buffer b) = true
      \/ (exists n, lead_seq_len (load buffer b) = Some n /\ length - b < n)
      \/ (is_continuation (load buffer b) = true
          /\ b = Z.max 0 (length - 4))).
Proof.
  intros [Hf _] Hb Hlt. apply find_boundary_cut_inv; trivial.
Qed.

Lemma cut_classification_witness :
  (forall j, 2 < j < 4 ->
             is_continuation (load [x41; x42; xe2; x82] j) = true)
  /\ (invalid_lead (load [x41; x42; xe2; x82] 2) = true
      \/ (exists n, lead_seq_len (load [x41; x42; xe2; x82] 2) = Some n
                    /\ 4 - 2 < n)
      \/ (is_continuation (load [x41; x42; xe2; x82] 2) = true
          /\ 2 = Z.max 0 (4 - 4))).
Proof.
  apply (cut_classification [x41; x42; xe2; x82] 4 2).
  - chunk_holds.
  - reflexivity.
  - lia.
Defined.

(** A lead byte at index [i] of the window, followed to the end of the
    chunk by continuation bytes only: the scanner returns [length] when
    the chunk holds at least the bytes the lead byte announces (surplus
    continuation bytes included), and [i] when it holds fewer. *)
Theorem lead_sequence_verdict (buffer : list byte) (length i n : Z) :
  chunk buffer length ->
  Z.max 0 (length - 4) <= i < length ->
  lead_seq_len (load buffer i) = Some n ->
  (forall j, i < j < length -> is_continuation (load buffer j) = true) ->
  buf_simdutf_utf8_find_boundary buffer length
  = Some (if n <=? length - i then length else i).
Proof.
  intros [Hf _] Hi Hlead Hc.
  rewrite (find_boundary_lead buffer length i); trivial; try lia.
  - unfold lead_verdict. rewrite Hlead.
    rewrite size_sub_exact by (trivial; lia). reflexivity.
  - apply (load_lead_not_continuation _ _ _ Hlead).
Qed.

Lemma lead_sequence_verdict_witness :
  buf_simdutf_utf8_find_boundary [x41; xc3; xa9; xa9] 4
  = Some (if 2 <=? 4 - 1 then 4 else 1).
Proof.
  apply (lead_sequence_verdict [x41; xc3; xa9; xa9] 4 1 2).
  - chunk_holds.
  - lia.
  - reflexivity.
  - intros j Hj. assert (j = 2 \/ j = 3) as [-> | ->] by lia; reflexivity.
Defined.

Lemma invalid_lead_not_ascii (x : Z) :
  invalid_lead x = true -> (x <? 0x80) = false.
Proof.
  unfold invalid_lead, lead_seq_len. intros H.
  destruct (x <? 128); [|reflexivity].
  rewrite andb_false_r in H. discriminate.
Qed.

(** No ASCII byte is ever held back: every byte at or after the returned
    boundary is 0x80 or above. *)
Theorem held_back_bytes_not_ascii (buffer : list byte) (length b : Z) :
  chunk buffer length ->
  buf_simdutf_utf8_find_boundary buffer length = Some b ->
  forall j, b <= j < length -> 0x80 <= load buffer j.
Proof.
  intros [Hf _] Hb j Hj.
  destruct (find_boundary_cut_inv buffer length b Hf Hb) as (Hc & Hat);
    [lia|].
  apply Z.ltb_ge.
  destruct (Z.eq_dec j b) as [->|Hne].
  - destruct Hat as [Hinv | [(n & Hn & Hlt) | (Hcont & _)]].
    + apply invalid_lead_not_ascii, Hinv.
    + destruct (load buffer b <? 128) eqn:E; [|reflexivity].
      rewrite (lead_seq_len_ascii _ E) in Hn. inversion Hn. lia.
    + apply load_continuation_not_ascii, Hcont.
  - apply load_continuation_not_ascii, Hc. lia.
Qed.

Lemma held_back_bytes_not_ascii_witness :
  0x80 <= load [x41; x80; x42; xe2; x82] 3
  /\ 0x80 <= load [x41; x80; x42; xe2; x82] 4.
Proof.
  split;
    apply (held_back_bytes_not_ascii [x41; x80; x42; xe2; x82] 5 3);
    try chunk_holds; try reflexivity; lia.
Defined.

(** The scanner keeps a non-empty chunk whole exactly when the last byte
    of the window that is not a continuation byte is a lead byte (ASCII
    included) and the chunk holds at least the bytes it announces. *)
Theorem kept_whole_iff (buffer : list byte) (length : Z) :
  chunk buffer length -> 0 < length ->
  buf_simdutf_utf8_find_boundary buffer length = Some length
  <-> exists l n,
        Z.max 0 (length - 4) <= l < length
        /\ lead_seq_len (load buffer l) = Some n
        /\ n <= length - l
        /\ (forall j, l < j < length ->
                      is_continuation (load buffer j) = true).
Proof.
  intros [Hf _] Hpos. split.
  - intros Hb.
    destruct (window_walk_cases buffer length) as [(l & Hl & Hn & Hc)|Hall];
      [lia| |].
    + rewrite (find_boundary_lead buffer length l) in Hb; trivial; try lia.
      unfold lead_verdict in Hb.
      destruct (lead_seq_len (load buffer l)) as [n|] eqn:En.
      * rewrite size_sub_exact in Hb by (trivial; lia).
        destruct (Z.leb_spec n (length - l)).
        -- exists l, n. repeat split; trivial; lia.
        -- inversion Hb. lia.
      * inversion Hb. lia.
    + rewrite find_boundary_all_continuation in Hb by trivial.
      inversion Hb. lia.
  - intros (l & n & Hl & Hlead & Hn & Hc).
    rewrite (find_boundary_lead buffer length l); trivial; try lia.
    + unfold lead_verdict. rewrite Hlead.
      rewrite size_sub_exact by (trivial; lia).
      destruct (Z.leb_spec n (length - l)); [reflexivity|lia].
    + apply (load_lead_not_continuation _ _ _ Hlead).
Qed.

Lemma kept_whole_iff_witness :
  buf_simdutf_utf8_find_boundary [xff; xf0; x9f; x98; x80] 5 = Some 5
  <-> exists l n,
        Z.max 0 (5 - 4) <= l < 5
        /\ lead_seq_len (load [xff; xf0; x9f; x98; x80] l) = Some n
        /\ n <= 5 - l
        /\ (forall j, l < j < 5 ->
              is_continuation (load [xff; xf0; x9f; x98; x80] j) = true).
Proof.
  apply (kept_whole_iff [xff; xf0; x9f; x98; x80] 5).
  - chunk_holds.
  - lia.
Defined.

(* ================================================================== *)
(** ** Chunks of valid text: scanning, validating, transcoding *)

(** The boundary of a chunk cut out of valid text closes a valid
    prefix. *)
Lemma boundary_of_prefix (s : list byte) (k : nat) :
  fits_size_t (Z.of_nat (List.length s)) ->
  validate_utf8 s = true -> (k <= List.length s)%nat ->
  exists b : nat,
    buf_simdutf_utf8_find_boundary (firstn k s) (Z.of_nat k)
    = Some (Z.of_nat b)
    /\ (b <= k)%nat /\ validate_utf8 (firstn b s) = true.
Proof.
  intros Hf Hv Hk. destruct k as [|k'].
  { exists 0%nat. split; [reflexivity|]. split; [lia|reflexivity]. }
  destruct (code_points_cover s k') as (i & n & Hcp & Hi & Hin);
    trivial; try lia.
  rewrite (find_boundary_code_point s i n (S k') Hf Hcp) by lia.
  destruct (Nat.ltb_spec (S k') (i + n)).
  - exists i. split; [reflexivity|]. split; [lia|].
    apply code_point_at_inv in Hcp as [Hp _]. exact Hp.
  - exists (S k'). split; [reflexivity|]. split; [lia|].
    replace (S k') with (i + n)%nat by lia. apply code_point_at_end, Hcp.
Qed.

(** What follows a valid prefix of valid text is valid. *)
Lemma validate_suffix (m : nat) :
  forall a b : list byte,
    (List.length a <= m)%nat ->
    validate_utf8 a = true -> validate_utf8 (a ++ b) = true ->
    validate_utf8 b = true.
Proof.
  induction m as [|m IH]; intros a b Hm Ha Hab.
  - destruct a; [exact Hab|simpl in Hm; lia].
  - destruct a as [|c t]; [exact Hab|].
    destruct (validate_step (c :: t)) as (cp & n & Hd & Hv);
      [discriminate|exact Ha|].
    pose proof (decode_one_shape _ _ _ Hd) as (Hn & Hlen & _).
    destruct (validate_step ((c :: t) ++ b)) as (cp' & n' & Hd' & Hv');
      [discriminate|exact Hab|].
    pose proof (decode_one_local _ (skipn n (c :: t) ++ b) _ _ Hd) as Hl.
    rewrite app_assoc, firstn_skipn in Hl.
    rewrite Hl in Hd'. inversion Hd'. subst cp' n'.
    rewrite skipn_app in Hv'.
    replace (n - List.length (c :: t))%nat with 0%nat in Hv' by lia.
    rewrite skipn_0 in Hv'.
    apply (IH (skipn n (c :: t))); trivial.
    rewrite length_skipn. cbn [List.length] in *. lia.
Qed.

(** Decoding goes through concatenation. *)
Lemma decode_utf8_app (m : nat) :
  forall (a b : list byte) (cpa : list Z),
    (List.length a <= m)%nat ->
    decode_utf8 a = Some cpa ->
    decode_utf8 (a ++ b) = option_map (app cpa) (decode_utf8 b).
Proof.
  induction m as [|m IH]; intros a b cpa Hm Ha.
  - destruct a; [|simpl in Hm; lia].
    inversion Ha. cbn [app]. destruct (decode_utf8 b); reflexivity.
  - destruct a as [|c t].
    { inversion Ha. cbn [app]. destruct (decode_utf8 b); reflexivity. }
    rewrite decode_utf8_step in Ha by discriminate.
    destruct (decode_one (c :: t)) as [[cp n]|] eqn:Hd; [|discriminate].
    destruct (decode_utf8 (skipn n (c :: t))) as [cps|] eqn:Hr;
      [|discriminate].
    inversion Ha. subst cpa.
    pose proof (decode_one_shape _ _ _ Hd) as (Hn & Hlen & _).
    pose proof (decode_one_local _ (skipn n (c :: t) ++ b) _ _ Hd) as Hl.
    rewrite app_assoc, firstn_skipn in Hl.
    rewrite (decode_utf8_step ((c :: t) ++ b)) by discriminate.
    rewrite Hl, skipn_app.
    replace (n - List.length (c :: t))%nat with 0%nat by lia.
    rewrite skipn_0.
    rewrite (IH (skipn n (c :: t)) b cps); trivial.
    + destruct (decode_utf8 b); reflexivity.
    + rewrite length_skipn. cbn [List.length] in *. lia.
Qed.

(** Both halves of valid text split after a valid prefix decode, and the
    whole decodes to the two lists of code points one after the other. *)
Lemma decode_split (s : list byte) (b : nat) :
  validate_utf8 s = true -> validate_utf8 (firstn b s) = true ->
  exists cpa cpb,
    decode_utf8 (firstn b s) = Some cpa
    /\ decode_utf8 (skipn b s) = Some cpb
    /\ decode_utf8 s = Some (cpa ++ cpb).
Proof.
  intros Hs Ha.
  assert (Hb : validate_utf8 (skipn b s) = true).
  { apply (validate_suffix (List.length (firstn b s)) (firstn b s));
      trivial. rewrite firstn_skipn. exact Hs. }
  unfold validate_utf8 in Ha, Hb.
  destruct (decode_utf8 (firstn b s)) as [cpa|] eqn:Ea; [|discriminate].
  destruct (decode_utf8 (skipn b s)) as [cpb|] eqn:Eb; [|discriminate].
  exists cpa, cpb. repeat split.
  rewrite <- (firstn_skipn b s) at 1.
  rewrite (decode_utf8_app (List.length (firstn b s)) _ _ cpa) by trivial.
  rewrite Eb. reflexivity.
Qed.

Lemma utf16_units_app (l1 l2 : list Z) :
  fold_right (fun cp acc => utf16_units cp + acc) 0 (l1 ++ l2)
  = fold_right (fun cp acc => utf16_units cp + acc) 0 l1
    + fold_right (fun cp acc => utf16_units cp + acc) 0 l2.
Proof.
  induction l1 as [|x l1 IH]; cbn [app fold_right]; lia.
Qed.

Lemma view_slice_from (s : list byte) (b : nat) :
  (b <= List.length s)%nat ->
  view (slice s b (List.length s))
       (Z.of_nat (List.length s) - Z.of_nat b)
  = skipn b s.
Proof.
  intros Hb. unfold view, slice.
  rewrite firstn_firstn, firstn_all2; [reflexivity|].
  rewrite length_skipn. lia.
Qed.

Lemma view_slice_to (s : list byte) (b : nat) :
  view (slice s 0 b) (Z.of_nat b) = firstn b s.
Proof.
  unfold view, slice.
  rewrite skipn_0, Nat.sub_0_r, Nat2Z.id, firstn_firstn, Nat.min_id.
  reflexivity.
Qed.

Lemma view_all (s : list byte) : view s (Z.of_nat (List.length s)) = s.
Proof. unfold view. rewrite Nat2Z.id. apply firstn_all. Qed.

(** The facts shared by the properties below: the boundary returned for
    [s[0..k)] closes a valid prefix of [s]. *)
Lemma boundary_closes_valid_prefix (s : list byte) (k b : nat) :
  fits_size_t (Z.of_nat (List.length s)) ->
  validate_utf8 s = true -> (k <= List.length s)%nat ->
  buf_simdutf_utf8_find_boundary (firstn k s) (Z.of_nat k)
  = Some (Z.of_nat b) ->
  (b <= k)%nat /\ validate_utf8 (firstn b s) = true.
Proof.
  intros Hf Hv Hk Hb.
  destruct (boundary_of_prefix s k Hf Hv Hk) as (b' & Hb' & Hle & Hp).
  rewrite Hb in Hb'. inversion Hb' as [Heq].
  apply Nat2Z.inj in Heq. subst b'. split; assumption.
Qed.

(** On chunks cut out of valid text the scanner is idempotent: scanning
    the prefix it returned returns that prefix whole. *)
Theorem rescan_is_stable (s : list byte) (k b : nat) :
  fits_size_t (Z.of_nat (List.length s)) ->
  valid_utf8 s -> (k <= List.length s)%nat ->
  buf_simdutf_utf8_find_boundary (firstn k s) (Z.of_nat k)
  = Some (Z.of_nat b) ->
  buf_simdutf_utf8_find_boundary (firstn b s) (Z.of_nat b)
  = Some (Z.of_nat b).
Proof.
  intros Hf Hv Hk Hb.
  destruct (boundary_closes_valid_prefix s k b Hf Hv Hk Hb) as (Hle & Hp).
  assert (Hlen : List.length (firstn b s) = b)
    by (rewrite length_firstn; lia).
  pose proof (find_boundary_valid (firstn b s)) as H.
  unfold find_utf8_boundary in H. rewrite Hlen in H.
  apply H; trivial. unfold fits_size_t in *. lia.
Qed.

Lemma rescan_is_stable_witness :
  buf_simdutf_utf8_find_boundary
    (firstn 1 [x61; xe2; x82; xac; xf0; x9f; x98; x80]) 1
  = Some 1.
Proof.
  apply (rescan_is_stable [x61; xe2; x82; xac; xf0; x9f; x98; x80] 3 1).
  - unfold fits_size_t, SIZE_MODULUS. simpl. lia.
  - reflexivity.
  - simpl. lia.
  - reflexivity.
Defined.

(** What a chunk of valid text leaves after its boundary, the bytes held
    back together with the rest of the text, is valid UTF-8 again: the
    validator accepts [s[b..len(s))]. *)
Theorem remainder_is_valid (s : list byte) (k b : nat) :
  fits_size_t (Z.of_nat (List.length s)) ->
  valid_utf8 s -> (k <= List.length s)%nat ->
  buf_simdutf_utf8_find_boundary (firstn k s) (Z.of_nat k)
  = Some (Z.of_nat b) ->
  buf_simdutf_validate_utf8 (slice s b (List.length s))
    (Z.of_nat (List.length s) - Z.of_nat b) = 1.
Proof.
  intros Hf Hv Hk Hb.
  destruct (boundary_closes_valid_prefix s k b Hf Hv Hk Hb) as (Hle & Hp).
  unfold buf_simdutf_validate_utf8. rewrite view_slice_from by lia.
  rewrite (validate_suffix (List.length (firstn b s)) (firstn b s));
    trivial.
  rewrite firstn_skipn. exact Hv.
Qed.

Lemma remainder_is_valid_witness :
  buf_simdutf_validate_utf8
    (slice [x61; xe2; x82; xac; xf0; x9f; x98; x80] 4
       (List.length [x61; xe2; x82; xac; xf0; x9f; x98; x80]))
    (Z.of_nat (List.length [x61; xe2; x82; xac; xf0; x9f; x98; x80])
     - Z.of_nat 4) = 1.
Proof.
  apply (remainder_is_valid [x61; xe2; x82; xac; xf0; x9f; x98; x80] 6 4).
  - unfold fits_size_t, SIZE_MODULUS. simpl. lia.
  - reflexivity.
  - simpl. lia.
  - reflexivity.
Defined.

(** The size estimate adds up over the boundary: for a chunk of valid
    text, the estimate of the whole text is the estimate of the returned
    prefix plus the estimate of what follows it. *)
Theorem estimate_adds_over_boundary (s : list byte) (k b : nat) :
  fits_size_t (Z.of_nat (List.length s)) ->
  valid_utf8 s -> (k <= List.length s)%nat ->
  buf_simdutf_utf8_find_boundary (firstn k s) (Z.of_nat k)
  = Some (Z.of_nat b) ->
  buf_simdutf_utf16_length_from_utf8 s (Z.of_nat (List.length s))
  = buf_simdutf_utf16_length_from_utf8 (slice s 0 b) (Z.of_nat b)
    + buf_simdutf_utf16_length_from_utf8 (slice s b (List.length s))
        (Z.of_nat (List.length s) - Z.of_nat b).
Proof.
  intros Hf Hv Hk Hb.
  destruct (boundary_closes_valid_prefix s k b Hf Hv Hk Hb) as (Hle & Hp).
  destruct (decode_split s b Hv Hp) as (cpa & cpb & Ea & Eb & Es).
  unfold buf_simdutf_utf16_length_from_utf8, utf16_length_from_utf8.
  rewrite view_all, view_slice_to, view_slice_from by lia.
  rewrite Ea, Eb, Es. apply utf16_units_app.
Qed.

Lemma estimate_adds_over_boundary_witness :
  buf_simdutf_utf16_length_from_utf8
    [x61; xe2; x82; xac; xf0; x9f; x98; x80]
    (Z.of_nat (List.length [x61; xe2; x82; xac; xf0; x9f; x98; x80]))
  = buf_simdutf_utf16_length_from_utf8
      (slice [x61; xe2; x82; xac; xf0; x9f; x98; x80] 0 4) (Z.of_nat 4)
    + buf_simdutf_utf16_length_from_utf8
        (slice [x61; xe2; x82; xac; xf0; x9f; x98; x80] 4
           (List.length [x61; xe2; x82; xac; xf0; x9f; x98; x80]))
        (Z.of_nat (List.length [x61; xe2; x82; xac; xf0; x9f; x98; x80])
         - Z.of_nat 4).
Proof.
  apply (estimate_adds_over_boundary
           [x61; xe2; x82; xac; xf0; x9f; x98; x80] 6 4).
  - unfold fits_size_t, SIZE_MODULUS. simpl. lia.
  - reflexivity.
  - simpl. lia.
  - reflexivity.
Defined.

(** Transcoding chunk by chunk: converting the returned prefix into the
    output buffer and then what follows it into the output right after
    the units written gives the same count and the same output as
    converting the whole text at once. *)
Theorem chunked_transcoding
        (s : list byte) (k b : nat) (output : list Z) :
  fits_size_t (Z.of_nat (List.length s)) ->
  valid_utf8 s -> (k <= List.length s)%nat ->
  buf_simdutf_utf8_find_boundary (firstn k s) (Z.of_nat k)
  = Some (Z.of_nat b) ->
  let r1 :=
    buf_simdutf_convert_utf8_to_chararray (slice s 0 b) (Z.of_nat b) output in
  let r2 :=
    buf_simdutf_convert_utf8_to_chararray (slice s b (List.length s))
      (Z.of_nat (List.length s) - Z.of_nat b)
      (skipn (Z.to_nat (fst r1)) (snd r1)) in
  let r :=
    buf_simdutf_convert_utf8_to_chararray s
      (Z.of_nat (List.length s)) output in
  fst r1 + fst r2 = fst r
  /\ firstn (Z.to_nat (fst r1)) (snd r1) ++ snd r2 = snd r.
Proof.
  intros Hf Hv Hk Hb.
  destruct (boundary_closes_valid_prefix s k b Hf Hv Hk Hb) as (Hle & Hp).
  destruct (decode_split s b Hv Hp) as (cpa & cpb & Ea & Eb & Es).
  unfold buf_simdutf_convert_utf8_to_chararray, convert_utf8_to_utf16le.
  rewrite view_all, view_slice_to, view_slice_from by lia.
  rewrite Ea, Eb, Es. cbn [fst snd]. rewrite Nat2Z.id.
  rewrite flat_map_app, length_app.
  set (u1 := flat_map encode_utf16 cpa).
  set (u2 := flat_map encode_utf16 cpb).
  split; [lia|].
  rewrite firstn_app, Nat.sub_diag, firstn_all, firstn_0, app_nil_r.
  rewrite skipn_app, Nat.sub_diag, skipn_all, skipn_0. cbn [app].
  rewrite skipn_skipn, <- app_assoc.
  do 3 f_equal. lia.
Qed.

Lemma chunked_transcoding_witness :
  let s := [x61; xe2; x82; xac; xf0; x9f; x98; x80] in
  let output := [0; 0; 0; 0; 9] in
  let r1 :=
    buf_simdutf_convert_utf8_to_chararray (slice s 0 4) (Z.of_nat 4) output in
  let r2 :=
    buf_simdutf_convert_utf8_to_chararray (slice s 4 (List.length s))
      (Z.of_nat (List.length s) - Z.of_nat 4)
      (skipn (Z.to_nat (fst r1)) (snd r1)) in
  let r :=
    buf_simdutf_convert_utf8_to_chararray s
      (Z.of_nat (List.length s)) output in
  fst r1 + fst r2 = fst r
  /\ firstn (Z.to_nat (fst r1)) (snd r1) ++ snd r2 = snd r.
Proof.
  apply (chunked_transcoding
           [x61; xe2; x82; xac; xf0; x9f; x98; x80] 6 4 [0; 0; 0; 0; 9]).
  - unfold fits_size_t, SIZE_MODULUS. simpl. lia.
  - reflexivity.
  - simpl. lia.
  - reflexivity.
Defined.
